(** * Qiskit Dynamics tutorial notebooks: model building, pulse
      parameterization and gate fidelity

    The notebooks of this repository are written against NumPy arrays.  The
    development below embeds the array expressions the notebooks evaluate
    (the two-transmon model of [dynamics_backend], and [signal_mapping],
    [fidelity] and [objective] of [optimizing_pulse_sequence]) and proves the
    documented properties of those expressions.

    Numbers: NumPy's [complex128] entries are modelled as pairs of real
    numbers with exact arithmetic; rounding is not modelled.  The ODE solver,
    the convolution filter, JAX's transformations and the optimizer belong to
    the libraries the notebooks import; where a notebook function calls one
    of them it is taken as a variable of the section embedding that
    function. *)

From Stdlib Require Import String.
From Stdlib Require Import Reals Lra Lia List ZArith Bool Arith.
Import ListNotations.

Local Open Scope R_scope.

(** ** Complex numbers *)

Module Cplx.

Definition C : Type := (R * R)%type.

Definition re (z : C) : R := fst z.
Definition im (z : C) : R := snd z.

Definition RtoC (x : R) : C := (x, 0).
Definition C0 : C := RtoC 0.
Definition C1 : C := RtoC 1.

Definition Cplus (a b : C) : C := (re a + re b, im a + im b).
Definition Copp (a : C) : C := (- re a, - im a).
Definition Cminus (a b : C) : C := Cplus a (Copp b).
Definition Cmult (a b : C) : C :=
  (re a * re b - im a * im b, re a * im b + im a * re b).

(** [np.abs] on a complex scalar. *)
Definition Cabs (z : C) : R := sqrt (re z * re z + im z * im z).

End Cplx.

Import Cplx.

(** ** NumPy arrays

    A one-dimensional array is a list; a two-dimensional array is the list
    of its rows.  The binary elementwise operations pair the entries of two
    arrays of the same shape (NumPy raises on shapes it cannot broadcast; the
    notebooks only combine arrays of equal shape, see [model_shapes]). *)

Module Np.

Definition vector : Type := list C.
Definition matrix : Type := list (list C).

Definition has_shape (m n : nat) (A : matrix) : bool :=
  Nat.eqb (length A) m && forallb (fun row => Nat.eqb (length row) n) A.

(** [np.arange(lo, hi)]. *)
Definition arange (lo hi : nat) : list Z :=
  map Z.of_nat (seq lo (hi - lo)).

(** Integer arrays promoted to floating point, and [np.sqrt] on them. *)
Definition of_ints (l : list Z) : vector := map (fun k => RtoC (IZR k)) l.
Definition sqrt_ints (l : list Z) : vector :=
  map (fun k => RtoC (sqrt (IZR k))) l.

(** [np.eye(n, dtype=complex)]. *)
Definition eye (n : nat) : matrix :=
  map (fun i => map (fun j => if Nat.eqb i j then C1 else C0) (seq 0 n))
      (seq 0 n).

(** [np.diag(v, k)]: the square array of side [len(v) + |k|] with [v] on
    the [k]-th diagonal, entry [(i, j)] being on it when [j - i = k]. *)
Definition diag (v : vector) (k : Z) : matrix :=
  let n := (length v + Z.abs_nat k)%nat in
  map (fun i =>
         map (fun j =>
                if (Z.of_nat j - Z.of_nat i =? k)%Z
                then nth (Nat.min i j) v C0
                else C0)
             (seq 0 n))
      (seq 0 n).

(** [A.T]. *)
Definition transpose (A : matrix) : matrix :=
  map (fun j => map (fun row => nth j row C0) A)
      (seq 0 (length (hd [] A))).

(** [np.kron(A, B)]: block [(i, j)] of the result is [A[i, j] * B]. *)
Definition kron (A B : matrix) : matrix :=
  flat_map
    (fun rowA =>
       map (fun rowB =>
              flat_map (fun a => map (fun b => Cmult a b) rowB) rowA)
           B)
    A.

Fixpoint zip_with (f : C -> C -> C) (u v : vector) : vector :=
  match u, v with
  | x :: u', y :: v' => f x y :: zip_with f u' v'
  | _, _ => []
  end.

Fixpoint zip_rows (f : C -> C -> C) (A B : matrix) : matrix :=
  match A, B with
  | r :: A', s :: B' => zip_with f r s :: zip_rows f A' B'
  | _, _ => []
  end.

(** [A + B], [A - B] and the elementwise product [A * B]. *)
Definition add (A B : matrix) : matrix := zip_rows Cplus A B.
Definition sub (A B : matrix) : matrix := zip_rows Cminus A B.
Definition mul (A B : matrix) : matrix := zip_rows Cmult A B.

(** [c * A] for a scalar [c]. *)
Definition scale (c : C) (A : matrix) : matrix :=
  map (map (Cmult c)) A.

Definition vsum (u : vector) : C := fold_right Cplus C0 u.

Definition dot (u v : vector) : C := vsum (zip_with Cmult u v).

(** The matrix product [A @ B]. *)
Definition matmul (A B : matrix) : matrix :=
  map (fun row => map (fun col => dot row col) (transpose B)) A.

(** [np.sum(A)], over all entries. *)
Definition sum (A : matrix) : C := vsum (concat A).

(** [np.trace(A)]. *)
Definition trace (A : matrix) : C :=
  vsum (map (fun i => nth i (nth i A []) C0) (seq 0 (length A))).

End Np.

(** ** The two-transmon model ([dynamics_backend], section 2) *)

Section TransmonModel.

(** Qubit frequencies, anharmonicities, drive strengths and coupling. *)
Variables v0 anharm0 r0 v1 anharm1 r1 J : R.

Definition dim : nat := 3.

Definition a : Np.matrix := Np.diag (Np.sqrt_ints (Np.arange 1 dim)) 1.
Definition adag : Np.matrix := Np.diag (Np.sqrt_ints (Np.arange 1 dim)) (-1).
Definition N : Np.matrix := Np.diag (Np.of_ints (Np.arange 0 dim)) 0.

Definition ident : Np.matrix := Np.eye dim.
Definition full_ident : Np.matrix := Np.eye (dim ^ 2).

Definition N0 : Np.matrix := Np.kron ident N.
Definition N1 : Np.matrix := Np.kron N ident.

Definition a0 : Np.matrix := Np.kron ident a.
Definition a1 : Np.matrix := Np.kron a ident.

Definition a0dag : Np.matrix := Np.kron ident adag.
Definition a1dag : Np.matrix := Np.kron adag ident.

(** [2 * np.pi * v0 * N0 + np.pi * anharm0 * N0 * (N0 - full_ident)]:
    Python evaluates the products left to right, so the second summand is
    the elementwise product of [np.pi * anharm0 * N0] and
    [N0 - full_ident]. *)
Definition static_ham0 : Np.matrix :=
  Np.add (Np.scale (RtoC (2 * PI * v0)) N0)
         (Np.mul (Np.scale (RtoC (PI * anharm0)) N0) (Np.sub N0 full_ident)).

Definition static_ham1 : Np.matrix :=
  Np.add (Np.scale (RtoC (2 * PI * v1)) N1)
         (Np.mul (Np.scale (RtoC (PI * anharm1)) N1) (Np.sub N1 full_ident)).

Definition static_ham_full : Np.matrix :=
  Np.add (Np.add static_ham0 static_ham1)
         (Np.scale (RtoC (2 * PI * J))
                   (Np.matmul (Np.add a0 a0dag) (Np.add a1 a1dag))).

Definition drive_op0 : Np.matrix :=
  Np.scale (RtoC (2 * PI * r0)) (Np.add a0 a0dag).
Definition drive_op1 : Np.matrix :=
  Np.scale (RtoC (2 * PI * r1)) (Np.add a1 a1dag).

(** *** The Hamiltonian as the notebook's text writes it

    The number operator [diag(0, ..., dim-1)], the raising operator as the
    transpose of the lowering operator, and matrix products throughout. *)






End TransmonModel.

(** ** Pulse parameterization ([optimizing_pulse_sequence], sections 2-3) *)

(** A [DiscreteSignal]: the sample width [dt], the envelope's samples and
    the carrier frequency. *)
Record Signal : Type := mkSignal {
  dt : R;
  samples : Np.vector;
  carrier_freq : R
}.

(** [DiscreteSignal(dt=..., samples=...)]; the carrier frequency defaults
    to 0. *)
Definition DiscreteSignal (dt : R) (samples : Np.vector) : Signal :=
  mkSignal dt samples 0.

(** [signal.duration], the number of samples. *)
Definition duration (s : Signal) : nat := length (samples s).

(** [signal.carrier_freq = f]. *)
Definition set_carrier_freq (s : Signal) (f : R) : Signal :=
  mkSignal (dt s) (samples s) f.

(** Qubit frequency and drive strength. *)
Definition v : R := 5.
Definition r : R := 0.02.

(** [Operator.from_label('X')] and [Operator.from_label('Z')] as arrays. *)
Definition X_op : Np.matrix := [[C0; C1]; [C1; C0]].
Definition Z_op : Np.matrix := [[C1; C0]; [C0; Copp C1]].

(** [2 * np.pi * v * Operator.from_label('Z') / 2] and
    [2 * np.pi * r * Operator.from_label('X') / 2]. *)
Definition static_hamiltonian : Np.matrix :=
  Np.scale (RtoC (/ 2)) (Np.scale (RtoC (2 * PI * v)) Z_op).
Definition drive_term : Np.matrix :=
  Np.scale (RtoC (/ 2)) (Np.scale (RtoC (2 * PI * r)) X_op).

(** [np.arctan(samples) / (np.pi / 2)] *)
Definition bounded_samples (params : list R) : list R :=
  map (fun x => atan x / (PI / 2)) params.

(** [np.append(Array([0], dtype=complex), bounded_samples)] *)
Definition padded_samples (params : list R) : Np.vector :=
  [C0] ++ map RtoC (bounded_samples params).

Section SignalMapping.

(** [convolution = Convolution(gaus)], the smoothing filter of
    [qiskit_dynamics.signals]. *)
Variable convolution : Signal -> Signal.

Definition signal_mapping (params : list R) : Signal :=
  let output_signal := convolution (DiscreteSignal 1 (padded_samples params)) in
  set_carrier_freq output_signal v.

End SignalMapping.

(** A filter whose first output sample is a weight times the first input
    sample, as for a discrete convolution [out[n] = sum_k f[k] * in[n-k]]. *)
Definition causal_filter (convolution : Signal -> Signal) : Prop :=
  forall s x,
    hd_error (samples s) = Some x ->
    exists w, hd_error (samples (convolution s)) = Some (Cmult w x).

(** ** Gate fidelity ([optimizing_pulse_sequence], section 4) *)

(** [np.abs(np.sum(X_op * U))**2 / 4.] *)
Definition fidelity (U : Np.matrix) : R :=
  (Cabs (Np.sum (Np.mul X_op U))) ^ 2 / 4.

(** The fidelity measure of the notebook's text, [|Tr(X U)|^2 / 4], with the
    matrix product of [X] and [U]. *)
Definition trace_fidelity (U : Np.matrix) : R :=
  (Cabs (Np.trace (Np.matmul X_op U))) ^ 2 / 4.

(** ** The objective and its optimization
       ([optimizing_pulse_sequence], sections 2, 5 and 6) *)

(** The model a [Solver] is built from. *)
Record SolverModel : Type := mkSolver {
  hamiltonian_operators : list Np.matrix;
  solver_static_hamiltonian : Np.matrix;
  rotating_frame : Np.matrix
}.

Definition ham_solver : SolverModel :=
  mkSolver [drive_term] static_hamiltonian static_hamiltonian.

(** Keyword options forwarded by [solve] to the integrator. *)
Record SolveOptions : Type := mkSolveOptions {
  solve_method : string;
  atol : R;
  rtol : R
}.

(** The result of [solve]: the time points and the snapshot at each. *)
Record OdeResult : Type := mkOdeResult {
  t : list R;
  y : list Np.matrix
}.

(** [l[-1]]: the last element; Python raises on an empty sequence. *)
Definition last_item {A : Type} (l : list A) : option A :=
  nth_error l (length l - 1).

(** The keyword arguments of [scipy.optimize.minimize]; [bounds] and
    [constraints] hold SciPy's defaults ([None] and [()]) when a call does
    not pass them. *)
Inductive Constraint : Type :=
  | EqConstraint (f : list R -> R)
  | IneqConstraint (f : list R -> R).

Record MinimizeCall : Type := mkMinimizeCall {
  fun_ : list R -> option (R * list R);
  x0 : list R;
  jac : bool;
  method : string;
  bounds : option (list (R * R));
  constraints : list Constraint
}.

Section Objective.

Variable convolution : Signal -> Signal.

(** [Solver.solve(y0, t_span, signals, **options)] of [qiskit_dynamics]. *)
Variable solve :
  SolverModel -> Np.matrix -> R * R -> list Signal -> SolveOptions ->
  OdeResult.

(** [jax.value_and_grad] and [jax.jit]. *)
Variable value_and_grad :
  (list R -> option R) -> list R -> option (R * list R).
Variable jit :
  (list R -> option (R * list R)) -> list R -> option (R * list R).

(** [np.random.rand(80) - 0.5] *)
Variable initial_guess : list R.

Definition objective (params : list R) : option R :=
  let signal := signal_mapping convolution params in
  let results :=
    solve ham_solver
          (Np.eye 2)
          (0, INR (duration signal) * dt signal)
          [signal]
          (mkSolveOptions "jax_odeint" 1e-8 1e-8) in
  match last_item (y results) with
  | Some U => let fid := fidelity U in Some (1 - fid)
  | None => None
  end.

Definition jit_grad_obj : list R -> option (R * list R) :=
  jit (value_and_grad objective).

(** [minimize(fun=jit_grad_obj, x0=initial_guess, jac=True, method='BFGS')] *)
Definition opt_call : MinimizeCall :=
  mkMinimizeCall jit_grad_obj initial_guess true "BFGS" None [].

End Objective.

(** ** Conjugate transpose, unitarity and array entries *)

Definition Cconj (z : C) : C := (re z, - im z).

(** [A.conj().T] *)
Definition dagger (A : Np.matrix) : Np.matrix :=
  map (map Cconj) (Np.transpose A).

(** A 2x2 array [U] with [U.conj().T @ U] the identity. *)
Definition unitary2 (U : Np.matrix) : Prop :=
  Np.has_shape 2 2 U = true /\ Np.matmul (dagger U) U = Np.eye 2.

(** [A[i, j]] *)
Definition entry (A : Np.matrix) (i j : nat) : C :=
  nth j (nth i A []) C0.

(** ** Matrix elements of the two-transmon model

    The basis state of index [3 * n1 + n0] has qubit 0 in level [n0] and
    qubit 1 in level [n1]. *)

(** The matrix element of [a + adag] between levels [n] and [m]. *)
Definition ladder (n m : nat) : R :=
  if Nat.eqb m (n + 1) then sqrt (IZR (Z.of_nat m))
  else if Nat.eqb n (m + 1) then sqrt (IZR (Z.of_nat n))
  else 0.

(** The energy of level [n] of a transmon of frequency [nu] and
    anharmonicity [alpha]. *)
Definition level_energy (nu alpha : R) (n : nat) : R :=
  2 * PI * nu * IZR (Z.of_nat n)
  + PI * alpha * IZR (Z.of_nat n) * (IZR (Z.of_nat n) - 1).

Section MatrixElements.

Variables v0 anharm0 r0 v1 anharm1 r1 J : R.

Definition matrix_element (n1 n0 m1 m0 : nat) : R :=
  (if Nat.eqb n0 m0 && Nat.eqb n1 m1
   then level_energy v0 anharm0 n0 + level_energy v1 anharm1 n1
   else 0)
  + 2 * PI * J * (ladder n0 m0 * ladder n1 m1).

Definition hamiltonian_table : Np.matrix :=
  map (fun i =>
         map (fun j =>
                RtoC (matrix_element (i / dim) (i mod dim)
                                     (j / dim) (j mod dim)))
             (seq 0 (dim * dim)))
      (seq 0 (dim * dim)).

Definition drive_element0 (n1 n0 m1 m0 : nat) : R :=
  if Nat.eqb n1 m1 then 2 * PI * r0 * ladder n0 m0 else 0.

Definition drive_element1 (n1 n0 m1 m0 : nat) : R :=
  if Nat.eqb n0 m0 then 2 * PI * r1 * ladder n1 m1 else 0.

End MatrixElements.

(** ** The convolution filter ([optimizing_pulse_sequence], section 3) *)

(** [gaus(t)]:
    [2.*_dt/np.sqrt(2.*np.pi*sigma**2)*np.exp(-t**2/(2*sigma**2))]
    with [sigma = 15] and [_dt = 0.1]. *)
Definition gaus (t : R) : R :=
  let sigma := 15 in
  let _dt := 0.1 in
  2 * _dt / sqrt (2 * PI * sigma ^ 2) * exp (- t ^ 2 / (2 * sigma ^ 2)).

(** ** The Gaussian square pulse ([optimizing_pulse_sequence], section 7) *)

(** [lifted_gaussian(t, center, t_zero, sigma)]: a Gaussian around
    [center], shifted and rescaled to vanish at [t_zero]. *)
Definition lifted_gaussian (t center t_zero sigma : R) : R :=
  let t_shifted := t - center in
  let t_offset := t_zero - center in
  let gauss := exp (- ((t_shifted / sigma) ^ 2) / 2) in
  let offset := exp (- ((t_offset / sigma) ^ 2) / 2) in
  (gauss - offset) / (1 - offset).

(** [sym.exp(sym.I * angle)] *)
Definition exp_I (angle : R) : C := (cos angle, sin angle).

(** [envelope_expr] of [gaussian_square_generated_by_pulse], as a function
    of the symbols it is built from; [sym.Piecewise] takes the first branch
    whose condition holds. *)
Definition envelope_expr (_t _duration _amp _sigma _width _angle : R) : C :=
  let _center := _duration / 2 in
  let _sq_t0 := _center - _width / 2 in
  let _sq_t1 := _center + _width / 2 in
  let _gaussian_ledge := lifted_gaussian _t _sq_t0 (-1) _sigma in
  let _gaussian_redge := lifted_gaussian _t _sq_t1 (_duration + 1) _sigma in
  Cmult (Cmult (RtoC _amp) (exp_I _angle))
        (RtoC (if Rle_dec _t _sq_t0 then _gaussian_ledge
               else if Rle_dec _sq_t1 _t then _gaussian_redge
               else 1)).

(** The arguments of [pulse.ScalableSymbolicPulse]: the constraints range
    over [_sigma], [_width] and [_duration], the amplitude condition over
    [_amp]. *)
Record ScalableSymbolicPulse : Type := mkScalableSymbolicPulse {
  pulse_type : string;
  pulse_duration : R;
  amp : R;
  angle : R;
  parameters : R * R;
  envelope : R -> R -> R -> R -> R -> R -> C;
  pulse_constraints : R -> R -> R -> Prop;
  valid_amp_conditions : R -> Prop
}.

Definition gaussian_square_generated_by_pulse (params : R * R)
  : ScalableSymbolicPulse :=
  let '(sigma, width) := params in
  mkScalableSymbolicPulse
    "GaussianSquare" 230 1 0 (sigma, width) envelope_expr
    (fun _sigma _width _duration =>
       _sigma > 0 /\ _width >= 0 /\ _duration >= _width)
    (fun _amp => Rabs _amp <= 1).

(** The envelope of a pulse at time [t]: the symbols of the expression are
    bound to the pulse's duration, amplitude, parameters and angle. *)
Definition envelope_at (p : ScalableSymbolicPulse) (t : R) : C :=
  envelope p t (pulse_duration p) (amp p)
           (fst (parameters p)) (snd (parameters p)) (angle p).

Definition valid_pulse (p : ScalableSymbolicPulse) : Prop :=
  pulse_constraints p (fst (parameters p)) (snd (parameters p))
                    (pulse_duration p)
  /\ valid_amp_conditions p (amp p).

(** ** The trajectory [objective] asks the solver for *)

Section ObjectiveResults.

Variable convolution : Signal -> Signal.
Variable solve :
  SolverModel -> Np.matrix -> R * R -> list Signal -> SolveOptions ->
  OdeResult.

Definition objective_results (params : list R) : OdeResult :=
  solve ham_solver
        (Np.eye 2)
        (0, INR (duration (signal_mapping convolution params))
            * dt (signal_mapping convolution params))
        [signal_mapping convolution params]
        (mkSolveOptions "jax_odeint" 1e-8 1e-8).

End ObjectiveResults.

(** * Properties *)

(** ** Complex arithmetic *)

Lemma C_eq (a b : C) : re a = re b -> im a = im b -> a = b.
Proof. destruct a, b; simpl; intros -> ->; reflexivity. Qed.

Lemma Cplus_comm (a b : C) : Cplus a b = Cplus b a.
Proof. apply C_eq; simpl; ring. Qed.

Lemma Cplus_assoc (a b c : C) : Cplus a (Cplus b c) = Cplus (Cplus a b) c.
Proof. apply C_eq; simpl; ring. Qed.


Lemma Cabs_sqr (z : C) : Cabs z * Cabs z = re z * re z + im z * im z.
Proof.
  unfold Cabs. apply sqrt_sqrt.
  pose proof (Rle_0_sqr (re z)) as Hr.
  pose proof (Rle_0_sqr (im z)) as Hi.
  unfold Rsqr in Hr, Hi. lra.
Qed.

(** ** Algebra of the elementwise array operations *)





(** Equality of two arrays given entry by entry: the arrays are evaluated
    down to their real and imaginary parts, which are compared as
    polynomials over the reals. *)
Ltac array_eq :=
  cbv -[Rplus Rminus Rmult Ropp Rinv Rdiv IZR sqrt PI];
  repeat match goal with
         | |- _ :: _ = _ :: _ => apply (f_equal2 cons)
         | |- (_, _) = (_, _) => apply (f_equal2 pair)
         end;
  try reflexivity; ring.

(** ** The model's operators *)

Example a_entries :
  a = [[C0; RtoC (sqrt 1); C0]; [C0; C0; RtoC (sqrt 2)]; [C0; C0; C0]].
Proof. reflexivity. Qed.

Example adag_entries :
  adag = [[C0; C0; C0]; [RtoC (sqrt 1); C0; C0]; [C0; RtoC (sqrt 2); C0]].
Proof. reflexivity. Qed.

Example N0_diagonal :
  N0 = Np.diag (map RtoC [0; 1; 2; 0; 1; 2; 0; 1; 2]) 0.
Proof. array_eq. Qed.

Example N1_diagonal :
  N1 = Np.diag (map RtoC [0; 0; 0; 1; 1; 1; 2; 2; 2]) 0.
Proof. array_eq. Qed.



Lemma model_shapes :
  Np.has_shape 9 9 N0 = true /\ Np.has_shape 9 9 N1 = true /\
  Np.has_shape 9 9 a0 = true /\ Np.has_shape 9 9 a1 = true /\
  Np.has_shape 9 9 a0dag = true /\ Np.has_shape 9 9 a1dag = true /\
  Np.has_shape 9 9 full_ident = true.
Proof. repeat split; reflexivity. Qed.




(** ** Pulse parameterization *)

Lemma normalize_bounds (x : R) : -1 <= atan x / (PI / 2) <= 1.
Proof.
  pose proof PI_RGT_0 as Hpi.
  pose proof (atan_bound x) as [Hlo Hhi].
  assert (Hpos : 0 < PI / 2) by lra.
  assert (Hone : PI / 2 * / (PI / 2) = 1) by (apply Rinv_r; lra).
  unfold Rdiv at 1 3.
  split; apply Rmult_le_reg_r with (PI / 2); try exact Hpos;
    rewrite Rmult_assoc, (Rmult_comm (/ _)), Hone; lra.
Qed.

Example bounded_samples_at_zero : bounded_samples [0; 0] = [0; 0].
Proof.
  unfold bounded_samples; simpl. rewrite atan_0.
  replace (0 / (PI / 2)) with 0; [reflexivity|].
  unfold Rdiv. now rewrite Rmult_0_l.
Qed.

(** C7. For every array of real parameters [signal_mapping] returns a
    signal.  The signal it hands to the convolution has the padded samples:
    a leading 0 followed by the normalized samples [arctan(x) / (pi/2)], one
    per parameter and each in [-1, 1].  The returned signal is the
    convolution's output with its carrier frequency set to the qubit
    frequency [v], whatever the parameters; and when the filter is a
    convolution, whose first output sample is a weight times the first input
    sample, the returned envelope starts at 0. *)
Theorem signal_mapping_unconstrained
        (convolution : Signal -> Signal) (params : list R) :
  Forall (fun x => -1 <= x <= 1) (bounded_samples params) /\
  length (bounded_samples params) = length params /\
  padded_samples params = C0 :: map RtoC (bounded_samples params) /\
  hd_error (padded_samples params) = Some C0 /\
  signal_mapping convolution params
  = set_carrier_freq
      (convolution (DiscreteSignal 1 (padded_samples params))) v /\
  samples (DiscreteSignal 1 (padded_samples params))
  = C0 :: map RtoC (bounded_samples params) /\
  samples (signal_mapping convolution params)
  = samples (convolution (DiscreteSignal 1 (padded_samples params))) /\
  carrier_freq (signal_mapping convolution params) = v /\
  (causal_filter convolution ->
   hd_error (samples (signal_mapping convolution params)) = Some C0).
Proof.
  split.
  { unfold bounded_samples. apply Forall_forall. intros b Hb.
    apply in_map_iff in Hb as (x & <- & _). apply normalize_bounds. }
  split; [apply length_map|].
  do 6 (split; [reflexivity|]).
  intros Hconv.
  destruct (Hconv (DiscreteSignal 1 (padded_samples params)) C0 eq_refl)
    as [w Hw].
  simpl. rewrite Hw. f_equal. apply C_eq; simpl; ring.
Qed.

Lemma signal_mapping_unconstrained_witness :
  causal_filter (fun s => s) /\
  hd_error (samples (signal_mapping (fun s => s) [1])) = Some C0.
Proof.
  assert (Hid : causal_filter (fun s => s)).
  { intros s x Hx. exists C1. rewrite Hx. f_equal.
    apply C_eq; simpl; ring. }
  split; [exact Hid|].
  apply (signal_mapping_unconstrained (fun s => s) [1]). exact Hid.
Defined.

(** ** Gate fidelity *)

Lemma has_shape_2x2 (U : Np.matrix) :
  Np.has_shape 2 2 U = true ->
  exists a b c d, U = [[a; b]; [c; d]].
Proof.
  unfold Np.has_shape. intros H.
  apply andb_prop in H as [Hlen Hrows].
  destruct U as [|u0 [|u1 [|u2 U]]]; try discriminate Hlen.
  simpl in Hrows.
  apply andb_prop in Hrows as [H0 Hrows].
  apply andb_prop in Hrows as [H1 _].
  destruct u0 as [|a [|b [|? ?]]]; try discriminate H0.
  destruct u1 as [|c [|d [|? ?]]]; try discriminate H1.
  now exists a, b, c, d.
Qed.

(** The entries summed by [np.sum(X_op * U)] and by [Tr(X_op @ U)]. *)
Lemma sum_hadamard_X (a b c d : C) :
  Np.sum (Np.mul X_op [[a; b]; [c; d]]) = Cplus b c.
Proof.
  apply C_eq;
    cbv -[Rplus Rminus Rmult Ropp IZR];
    destruct a, b, c, d; cbv [fst snd]; ring.
Qed.

Lemma trace_matmul_X (a b c d : C) :
  Np.trace (Np.matmul X_op [[a; b]; [c; d]]) = Cplus c b.
Proof.
  apply C_eq;
    cbv -[Rplus Rminus Rmult Ropp IZR];
    destruct a, b, c, d; cbv [fst snd]; ring.
Qed.

Example fidelity_of_X : fidelity X_op = 1.
Proof.
  unfold fidelity, X_op. rewrite sum_hadamard_X.
  simpl pow. rewrite Rmult_1_r, Cabs_sqr. simpl. lra.
Qed.

Example fidelity_of_identity : fidelity (Np.eye 2) = 0.
Proof.
  unfold fidelity. change (Np.eye 2) with [[C1; C0]; [C0; C1]].
  rewrite sum_hadamard_X.
  simpl pow. rewrite Rmult_1_r, Cabs_sqr. simpl. lra.
Qed.

(** C3. For every 2x2 complex matrix [U], [fidelity U], computed as
    [np.abs(np.sum(X_op * U))**2 / 4] with an elementwise product, equals
    [|Tr(X U)|^2 / 4] with the matrix product of Pauli X and [U]. *)
Theorem fidelity_is_trace_formula (U : Np.matrix) :
  Np.has_shape 2 2 U = true ->
  fidelity U = trace_fidelity U.
Proof.
  intros H. destruct (has_shape_2x2 U H) as (a & b & c & d & ->).
  unfold fidelity, trace_fidelity.
  rewrite sum_hadamard_X, trace_matmul_X, (Cplus_comm c b).
  reflexivity.
Qed.

Lemma fidelity_is_trace_formula_witness :
  Np.has_shape 2 2 [[C0; C1]; [C1; C0]] = true /\
  fidelity [[C0; C1]; [C1; C0]] = trace_fidelity [[C0; C1]; [C1; C0]].
Proof.
  split; [reflexivity | apply fidelity_is_trace_formula; reflexivity].
Defined.

(** ** The objective *)

Lemma last_item_snoc {A : Type} (l : list A) (x : A) :
  last_item (l ++ [x]) = Some x.
Proof.
  unfold last_item. rewrite length_app, Nat.add_sub. simpl.
  rewrite nth_error_app2 by apply Nat.le_refl.
  now rewrite Nat.sub_diag.
Qed.

Example last_item_empty : @last_item nat [] = None.
Proof. reflexivity. Qed.

(** C4. [objective(params)] is [1 - fidelity(U)] for the final snapshot [U]
    of solving from the 2x2 identity over [[0, signal.duration * signal.dt]]
    under the single signal [signal_mapping(params)]; the optimizer is called
    on this objective (with its gradient) with method BFGS and neither bounds
    nor constraints. *)
Theorem objective_is_infidelity
        (convolution : Signal -> Signal)
        (solve : SolverModel -> Np.matrix -> R * R -> list Signal ->
                 SolveOptions -> OdeResult)
        (value_and_grad : (list R -> option R) -> list R -> option (R * list R))
        (jit : (list R -> option (R * list R)) -> list R -> option (R * list R))
        (initial_guess params : list R) (U : Np.matrix) :
  (exists earlier,
      y (solve ham_solver
               [[C1; C0]; [C0; C1]]
               (0, INR (duration (signal_mapping convolution params))
                   * dt (signal_mapping convolution params))
               [signal_mapping convolution params]
               (mkSolveOptions "jax_odeint" 1e-8 1e-8))
      = earlier ++ [U]) ->
  objective convolution solve params = Some (1 - fidelity U) /\
  fun_ (opt_call convolution solve value_and_grad jit initial_guess)
    = jit (value_and_grad (objective convolution solve)) /\
  x0 (opt_call convolution solve value_and_grad jit initial_guess)
    = initial_guess /\
  method (opt_call convolution solve value_and_grad jit initial_guess)
    = "BFGS"%string /\
  bounds (opt_call convolution solve value_and_grad jit initial_guess)
    = None /\
  constraints (opt_call convolution solve value_and_grad jit initial_guess)
    = [].
Proof.
  intros [earlier Hy]. split; [|repeat split].
  unfold objective.
  change (Np.eye 2) with [[C1; C0]; [C0; C1]].
  now rewrite Hy, last_item_snoc.
Qed.

Lemma objective_is_infidelity_witness :
  objective (fun s => s) (fun _ y0 _ _ _ => mkOdeResult [0] [y0]) [1]
  = Some (1 - fidelity [[C1; C0]; [C0; C1]]).
Proof.
  apply (objective_is_infidelity
           (fun s => s) (fun _ y0 _ _ _ => mkOdeResult [0] [y0])
           (fun f x => option_map (fun l => (l, [])) (f x)) (fun f => f)
           [0] [1] [[C1; C0]; [C0; C1]]).
  exists []. reflexivity.
Defined.

(** * Further properties of the notebooks' code *)

(** ** More complex arithmetic *)

Lemma Cabs_pow2 (z : C) : Cabs z ^ 2 = re z * re z + im z * im z.
Proof. simpl. rewrite Rmult_1_r. apply Cabs_sqr. Qed.

Lemma Cabs_RtoC (x : R) : Cabs (RtoC x) = Rabs x.
Proof.
  unfold Cabs. cbv [RtoC re im fst snd].
  replace (x * x + 0 * 0) with (Rsqr x) by (unfold Rsqr; ring).
  apply sqrt_Rsqr_abs.
Qed.

Lemma Cmult_plus_distr_l (c x z : C) :
  Cmult c (Cplus x z) = Cplus (Cmult c x) (Cmult c z).
Proof. apply C_eq; simpl; ring. Qed.

Lemma Cmult_C0_r (c : C) : Cmult c C0 = C0.
Proof. apply C_eq; simpl; ring. Qed.

Lemma Cmult_RtoC_1 (z : C) : Cmult z (RtoC 1) = z.
Proof. apply C_eq; cbv [Cmult RtoC re im fst snd]; ring. Qed.

Lemma Cmult_RtoC_0 (z : C) : Cmult z (RtoC 0) = C0.
Proof. apply C_eq; cbv [Cmult RtoC C0 re im fst snd]; ring. Qed.

Lemma Cabs_pow2_mult (c z : C) :
  Cabs (Cmult c z) ^ 2 = Cabs c ^ 2 * Cabs z ^ 2.
Proof. rewrite !Cabs_pow2. simpl. ring. Qed.

Lemma Cabs_i : Cabs (0, 1) = 1.
Proof.
  unfold Cabs; simpl. replace (0 * 0 + 1 * 1) with 1 by ring. apply sqrt_1.
Qed.

(** ** Sums and scalar multiples of arrays *)

Lemma vsum_app (u w : Np.vector) :
  Np.vsum (u ++ w) = Cplus (Np.vsum u) (Np.vsum w).
Proof.
  induction u as [|x u IH]; simpl.
  - apply C_eq; simpl; ring.
  - unfold Np.vsum in *. simpl. rewrite IH. apply Cplus_assoc.
Qed.

Lemma vsum_scale (c : C) (u : Np.vector) :
  Np.vsum (map (Cmult c) u) = Cmult c (Np.vsum u).
Proof.
  induction u as [|x u IH].
  - simpl. symmetry. apply Cmult_C0_r.
  - unfold Np.vsum in *. simpl. now rewrite IH, Cmult_plus_distr_l.
Qed.

Lemma sum_scale (c : C) (A : Np.matrix) :
  Np.sum (Np.scale c A) = Cmult c (Np.sum A).
Proof.
  unfold Np.sum, Np.scale.
  induction A as [|row A IH]; simpl.
  - symmetry. apply Cmult_C0_r.
  - rewrite !vsum_app, IH, vsum_scale. now rewrite Cmult_plus_distr_l.
Qed.

Lemma zip_with_mult_scale_r (c : C) (u w : Np.vector) :
  Np.zip_with Cmult u (map (Cmult c) w)
  = map (Cmult c) (Np.zip_with Cmult u w).
Proof.
  revert w; induction u as [|x u IH]; intros [|z w]; simpl; try reflexivity.
  rewrite IH. f_equal. apply C_eq; simpl; ring.
Qed.

Lemma mul_scale_r (c : C) (A B : Np.matrix) :
  Np.mul A (Np.scale c B) = Np.scale c (Np.mul A B).
Proof.
  unfold Np.mul, Np.scale. revert B.
  induction A as [|row A IH]; intros [|s B]; simpl; try reflexivity.
  now rewrite zip_with_mult_scale_r, IH.
Qed.

Lemma entry_table (f : nat -> nat -> C) (n i j : nat) :
  (i < n)%nat -> (j < n)%nat ->
  entry (map (fun i => map (fun j => f i j) (seq 0 n)) (seq 0 n)) i j = f i j.
Proof.
  intros Hi Hj. unfold entry.
  rewrite (nth_indep _ [] (map (fun j => f 0%nat j) (seq 0 n)))
    by (now rewrite length_map, length_seq).
  rewrite (map_nth (fun i => map (fun j => f i j) (seq 0 n))).
  rewrite seq_nth by exact Hi. simpl.
  rewrite (nth_indep _ C0 (f i 0%nat))
    by (now rewrite length_map, length_seq).
  rewrite (map_nth (fun j => f i j)).
  now rewrite seq_nth by exact Hj.
Qed.

Lemma index_div_mod (n1 n0 : nat) :
  (n0 < 3)%nat -> ((3 * n1 + n0) / 3 = n1 /\ (3 * n1 + n0) mod 3 = n0)%nat.
Proof.
  intros H. split.
  - rewrite Nat.mul_comm, Nat.div_add_l by discriminate.
    rewrite Nat.div_small by exact H. apply Nat.add_0_r.
  - rewrite Nat.add_comm, Nat.mul_comm, Nat.Div0.mod_add.
    now apply Nat.mod_small.
Qed.

(** ** Gate fidelity: scaling, range and the optimum *)

Lemma fidelity_scale (c : C) (U : Np.matrix) :
  fidelity (Np.scale c U) = Cabs c ^ 2 * fidelity U.
Proof.
  unfold fidelity. rewrite mul_scale_r, sum_scale, Cabs_pow2_mult.
  unfold Rdiv. ring.
Qed.

Lemma fidelity_nonneg (U : Np.matrix) : 0 <= fidelity U.
Proof.
  unfold fidelity. rewrite Cabs_pow2.
  pose proof (Rle_0_sqr (re (Np.sum (Np.mul X_op U)))) as Hr.
  pose proof (Rle_0_sqr (im (Np.sum (Np.mul X_op U)))) as Hi.
  unfold Rsqr in Hr, Hi. lra.
Qed.

(** The columns of a unitary 2x2 array have norm 1. *)
Lemma unitary2_columns (U : Np.matrix) :
  unitary2 U ->
  exists a b c d,
    U = [[a; b]; [c; d]] /\
    re a * re a + im a * im a + (re c * re c + im c * im c) = 1 /\
    re b * re b + im b * im b + (re d * re d + im d * im d) = 1.
Proof.
  intros [Hs Hu].
  destruct (has_shape_2x2 U Hs) as (a & b & c & d & ->).
  exists a, b, c, d. split; [reflexivity|].
  destruct a as [ar ai], b as [br bi], c as [cr ci], d as [dr di].
  cbv -[Rplus Rminus Rmult Ropp IZR] in Hu.
  injection Hu; intros _ Hb _ _ _ _ _ Ha; clear Hu Hs.
  cbv [re im fst snd]. split; lra.
Qed.

Lemma X_op_unitary : unitary2 X_op.
Proof. split; [reflexivity | array_eq]. Qed.

Lemma fidelity_unitary_bounds (U : Np.matrix) :
  unitary2 U -> 0 <= fidelity U <= 1.
Proof.
  intros HU. split; [apply fidelity_nonneg|].
  destruct (unitary2_columns U HU) as (a & b & c & d & -> & Hac & Hbd).
  unfold fidelity. rewrite sum_hadamard_X, Cabs_pow2.
  destruct a as [ar ai], b as [br bi], c as [cr ci], d as [dr di].
  clear HU. cbv [re im fst snd Cplus] in *.
  pose proof (Rle_0_sqr (br - cr)) as H1.
  pose proof (Rle_0_sqr (bi - ci)) as H2.
  pose proof (Rle_0_sqr ar) as H3. pose proof (Rle_0_sqr ai) as H4.
  pose proof (Rle_0_sqr dr) as H5. pose proof (Rle_0_sqr di) as H6.
  unfold Rsqr in *. lra.
Qed.

Lemma fidelity_one_characterization (U : Np.matrix) :
  unitary2 U ->
  (fidelity U = 1 <-> exists c, Cabs c = 1 /\ U = Np.scale c X_op).
Proof.
  intros HU. split.
  - intros Hf.
    destruct (unitary2_columns U HU) as (a & b & c & d & -> & Hac & Hbd).
    clear HU. unfold fidelity in Hf. rewrite sum_hadamard_X, Cabs_pow2 in Hf.
    destruct a as [ar ai], b as [br bi], c as [cr ci], d as [dr di].
    cbv [re im fst snd Cplus] in *.
    pose proof (Rle_0_sqr (br - cr)) as H1.
    pose proof (Rle_0_sqr (bi - ci)) as H2.
    pose proof (Rle_0_sqr ar) as H3. pose proof (Rle_0_sqr ai) as H4.
    pose proof (Rle_0_sqr dr) as H5. pose proof (Rle_0_sqr di) as H6.
    unfold Rsqr in *.
    assert (Hbr : (br - cr) * (br - cr) = 0) by lra.
    assert (Hbi : (bi - ci) * (bi - ci) = 0) by lra.
    assert (Har : ar * ar = 0) by lra. assert (Hai : ai * ai = 0) by lra.
    assert (Hdr : dr * dr = 0) by lra. assert (Hdi : di * di = 0) by lra.
    apply Rsqr_0_uniq in Hbr, Hbi, Har, Hai, Hdr, Hdi.
    assert (cr = br) by lra. assert (ci = bi) by lra. subst.
    exists (br, bi). split.
    + unfold Cabs; cbv [re im fst snd].
      replace (br * br + bi * bi) with 1 by lra. apply sqrt_1.
    + array_eq.
  - intros (c & Hc & ->). rewrite fidelity_scale, Hc, fidelity_of_X. ring.
Qed.

(** The fidelity does not see a global phase: multiplying a 2x2 array [U]
    by a complex number of modulus 1 gives a 2x2 array of the same
    fidelity. *)
Theorem fidelity_global_phase (c : C) (U : Np.matrix) :
  Np.has_shape 2 2 U = true ->
  Cabs c = 1 ->
  Np.has_shape 2 2 (Np.scale c U) = true /\
  fidelity (Np.scale c U) = fidelity U.
Proof.
  intros HU Hc. split.
  - destruct (has_shape_2x2 U HU) as (a & b & c' & d & ->). reflexivity.
  - rewrite fidelity_scale, Hc. ring.
Qed.

Lemma fidelity_global_phase_witness :
  Np.has_shape 2 2 (Np.scale (0, 1) X_op) = true /\
  fidelity (Np.scale (0, 1) X_op) = fidelity X_op.
Proof.
  apply fidelity_global_phase; [reflexivity | exact Cabs_i].
Defined.

(** On a unitary 2x2 array the fidelity lies between 0 and 1. *)
Theorem fidelity_unitary_range (U : Np.matrix) :
  unitary2 U -> 0 <= fidelity U <= 1.
Proof. exact (fidelity_unitary_bounds U). Qed.

Lemma fidelity_unitary_range_witness : 0 <= fidelity X_op <= 1.
Proof.
  apply fidelity_unitary_range. split; [reflexivity | array_eq].
Defined.

(** A unitary 2x2 array has fidelity 1 exactly when it is the X gate up to
    a global phase. *)
Theorem fidelity_one_iff_X_up_to_phase (U : Np.matrix) :
  unitary2 U ->
  (fidelity U = 1 <-> exists c, Cabs c = 1 /\ U = Np.scale c X_op).
Proof. exact (fidelity_one_characterization U). Qed.

Lemma fidelity_one_iff_X_up_to_phase_witness :
  fidelity X_op = 1 <-> exists c, Cabs c = 1 /\ X_op = Np.scale c X_op.
Proof.
  apply fidelity_one_iff_X_up_to_phase. split; [reflexivity | array_eq].
Defined.

(** ** The objective: range and optimum *)

Lemma objective_unfold
      (convolution : Signal -> Signal)
      (solve : SolverModel -> Np.matrix -> R * R -> list Signal ->
               SolveOptions -> OdeResult)
      (params : list R) :
  objective convolution solve params
  = option_map (fun U => 1 - fidelity U)
               (last_item (y (objective_results convolution solve params))).
Proof.
  unfold objective, objective_results.
  now destruct (last_item _).
Qed.

(** When the final snapshot is unitary the objective is an infidelity
    between 0 and 1. *)
Theorem objective_unitary_range
        (convolution : Signal -> Signal)
        (solve : SolverModel -> Np.matrix -> R * R -> list Signal ->
                 SolveOptions -> OdeResult)
        (params : list R) (U : Np.matrix) :
  last_item (y (objective_results convolution solve params)) = Some U ->
  unitary2 U ->
  exists o, objective convolution solve params = Some o /\ 0 <= o <= 1.
Proof.
  intros Hlast HU. exists (1 - fidelity U).
  rewrite objective_unfold, Hlast. split; [reflexivity|].
  pose proof (fidelity_unitary_bounds U HU). lra.
Qed.

Lemma objective_unitary_range_witness :
  exists o,
    objective (fun s => s) (fun _ _ _ _ _ => mkOdeResult [0] [X_op]) [1]
    = Some o /\ 0 <= o <= 1.
Proof.
  apply (objective_unitary_range
           (fun s => s) (fun _ _ _ _ _ => mkOdeResult [0] [X_op]) [1] X_op).
  - reflexivity.
  - split; [reflexivity | array_eq].
Defined.

(** When the final snapshot is unitary the objective is 0 exactly when the
    pulse implements the X gate up to a global phase. *)
Theorem objective_zero_iff_X_gate
        (convolution : Signal -> Signal)
        (solve : SolverModel -> Np.matrix -> R * R -> list Signal ->
                 SolveOptions -> OdeResult)
        (params : list R) (U : Np.matrix) :
  last_item (y (objective_results convolution solve params)) = Some U ->
  unitary2 U ->
  (objective convolution solve params = Some 0
   <-> exists c, Cabs c = 1 /\ U = Np.scale c X_op).
Proof.
  intros Hlast HU.
  rewrite <- (fidelity_one_characterization U HU).
  rewrite objective_unfold, Hlast. simpl. split.
  - intros [= H]. lra.
  - intros ->. f_equal. lra.
Qed.

Lemma objective_zero_iff_X_gate_witness :
  objective (fun s => s) (fun _ _ _ _ _ => mkOdeResult [0] [X_op]) [1]
  = Some 0
  <-> exists c, Cabs c = 1 /\ X_op = Np.scale c X_op.
Proof.
  apply (objective_zero_iff_X_gate
           (fun s => s) (fun _ _ _ _ _ => mkOdeResult [0] [X_op]) [1] X_op).
  - reflexivity.
  - split; [reflexivity | array_eq].
Defined.

(** ** Pulse parameterization: what reaches the convolution *)

(** [signal_mapping] hands the convolution a signal of [len(params) + 1]
    samples of width 1 and carrier frequency 0, every sample real and of
    modulus at most 1, and changes nothing but the carrier frequency of what
    the convolution returns. *)
Theorem signal_mapping_pre_convolution
        (convolution : Signal -> Signal) (params : list R) :
  exists s,
    signal_mapping convolution params = set_carrier_freq (convolution s) v /\
    duration s = S (length params) /\
    dt s = 1 /\
    carrier_freq s = 0 /\
    Forall (fun z => im z = 0 /\ Cabs z <= 1) (samples s) /\
    dt (signal_mapping convolution params) = dt (convolution s) /\
    samples (signal_mapping convolution params) = samples (convolution s).
Proof.
  exists (DiscreteSignal 1 (padded_samples params)).
  split; [reflexivity|].
  split; [unfold duration, padded_samples, bounded_samples; simpl;
          now rewrite !length_map|].
  split; [reflexivity|]. split; [reflexivity|].
  split; [|split; reflexivity].
  simpl. constructor.
  - split; [reflexivity|]. unfold C0. rewrite Cabs_RtoC, Rabs_R0. lra.
  - apply Forall_forall. intros z Hz.
    apply in_map_iff in Hz as (b & <- & Hb).
    apply in_map_iff in Hb as (x & <- & _).
    split; [reflexivity|]. rewrite Cabs_RtoC.
    apply Rabs_le. apply normalize_bounds.
Qed.

(** ** The convolution filter *)

Lemma gaus_scale_pos : 0 < 2 * 0.1 / sqrt (2 * PI * 15 ^ 2).
Proof.
  pose proof PI_RGT_0 as Hpi.
  apply Rdiv_lt_0_compat; [lra|].
  apply sqrt_lt_R0. nra.
Qed.

(** The filter is positive, even, and largest at 0. *)
Theorem gaus_shape (x : R) :
  0 < gaus x /\ gaus x <= gaus 0 /\ gaus (- x) = gaus x.
Proof.
  unfold gaus. pose proof gaus_scale_pos as Hk.
  split; [|split].
  - apply Rmult_lt_0_compat; [exact Hk | apply exp_pos].
  - apply Rmult_le_compat_l; [lra|].
    replace (- 0 ^ 2 / (2 * 15 ^ 2)) with 0 by (simpl; field).
    rewrite exp_0.
    destruct (Req_dec x 0) as [-> | Hx].
    + replace (- 0 ^ 2 / (2 * 15 ^ 2)) with 0 by (simpl; field).
      rewrite exp_0. lra.
    + left. rewrite <- exp_0. apply exp_increasing.
      assert (0 < x ^ 2) by (simpl; nra).
      assert (0 < x ^ 2 / (2 * 15 ^ 2))
        by (apply Rdiv_lt_0_compat; [assumption | simpl; lra]).
      apply Rlt_le_trans with (- x ^ 2 / (2 * 15 ^ 2) + x ^ 2 / (2 * 15 ^ 2)).
      * lra.
      * right. field.
  - f_equal. f_equal. f_equal. simpl. ring.
Qed.

(** ** The lifted Gaussian *)

Lemma gauss_factor_le_1 (x : R) : exp (- (x ^ 2) / 2) <= 1.
Proof.
  rewrite <- exp_0.
  destruct (Req_dec x 0) as [-> | Hx].
  - right. f_equal. simpl. field.
  - left. apply exp_increasing. assert (0 < x ^ 2) by (simpl; nra). lra.
Qed.

Lemma gauss_factor_lt_1 (x : R) : x <> 0 -> exp (- (x ^ 2) / 2) < 1.
Proof.
  intros Hx. rewrite <- exp_0. apply exp_increasing.
  assert (0 < x ^ 2) by (simpl; nra). lra.
Qed.

Lemma gauss_factor_mono (x z : R) :
  x ^ 2 <= z ^ 2 -> exp (- (z ^ 2) / 2) <= exp (- (x ^ 2) / 2).
Proof.
  intros H. destruct (Req_dec (x ^ 2) (z ^ 2)) as [-> | Hne].
  - lra.
  - left. apply exp_increasing. lra.
Qed.

Lemma div_neq_0 (x s : R) : s <> 0 -> x <> 0 -> x / s <> 0.
Proof.
  intros Hs Hx H. apply Hx.
  replace x with (x / s * s) by (field; exact Hs). rewrite H. ring.
Qed.

Lemma div_sq_mono (x z s : R) :
  s <> 0 -> x ^ 2 <= z ^ 2 -> (x / s) ^ 2 <= (z / s) ^ 2.
Proof.
  intros Hs H.
  replace ((x / s) ^ 2) with (x ^ 2 * (/ s) ^ 2) by (field; exact Hs).
  replace ((z / s) ^ 2) with (z ^ 2 * (/ s) ^ 2) by (field; exact Hs).
  apply Rmult_le_compat_r; [apply pow2_ge_0 | exact H].
Qed.

Lemma neg_div_sq (x s : R) : (- x / s) ^ 2 = (x / s) ^ 2.
Proof. unfold Rdiv. ring. Qed.

Lemma lifted_gaussian_offset_lt_1 (center t_zero sigma : R) :
  sigma <> 0 -> t_zero <> center ->
  exp (- ((t_zero - center) / sigma) ^ 2 / 2) < 1.
Proof.
  intros Hs Hz. apply gauss_factor_lt_1, div_neq_0; [exact Hs | lra].
Qed.

Lemma lifted_gaussian_center (center t_zero sigma : R) :
  sigma <> 0 -> t_zero <> center ->
  lifted_gaussian center center t_zero sigma = 1.
Proof.
  intros Hs Hz. unfold lifted_gaussian.
  pose proof (lifted_gaussian_offset_lt_1 center t_zero sigma Hs Hz) as Hoff.
  replace (- ((center - center) / sigma) ^ 2 / 2) with 0
    by (field; exact Hs).
  rewrite exp_0. field. lra.
Qed.

Lemma lifted_gaussian_zero (center t_zero sigma : R) :
  lifted_gaussian t_zero center t_zero sigma = 0.
Proof.
  unfold lifted_gaussian, Rdiv. rewrite Rminus_diag. apply Rmult_0_l.
Qed.

Lemma lifted_gaussian_range (x center t_zero sigma : R) :
  sigma <> 0 -> t_zero <> center ->
  (x - center) ^ 2 <= (t_zero - center) ^ 2 ->
  0 <= lifted_gaussian x center t_zero sigma <= 1.
Proof.
  intros Hs Hz Hin. unfold lifted_gaussian.
  pose proof (lifted_gaussian_offset_lt_1 center t_zero sigma Hs Hz) as Hoff.
  pose proof (gauss_factor_le_1 ((x - center) / sigma)) as Hle.
  pose proof (gauss_factor_mono _ _ (div_sq_mono _ _ sigma Hs Hin)) as Hge.
  set (offset := exp (- ((t_zero - center) / sigma) ^ 2 / 2)) in *.
  set (gauss := exp (- ((x - center) / sigma) ^ 2 / 2)) in *.
  assert (Hd : 0 < 1 - offset) by lra.
  split.
  - apply Rmult_le_pos; [lra | left; apply Rinv_0_lt_compat; exact Hd].
  - apply Rmult_le_reg_r with (1 - offset); [exact Hd|].
    unfold Rdiv. rewrite Rmult_assoc, Rinv_l by lra. lra.
Qed.

Lemma lifted_gaussian_mirror (x d w sigma : R) :
  lifted_gaussian (d - x) (d / 2 + w / 2) (d + 1) sigma
  = lifted_gaussian x (d / 2 - w / 2) (-1) sigma.
Proof.
  unfold lifted_gaussian.
  replace (d - x - (d / 2 + w / 2)) with (- (x - (d / 2 - w / 2))) by field.
  replace (d + 1 - (d / 2 + w / 2)) with (- (-1 - (d / 2 - w / 2))) by field.
  now rewrite !neg_div_sq.
Qed.

Lemma lifted_gaussian_mirror_r (x d w sigma : R) :
  lifted_gaussian (d - x) (d / 2 - w / 2) (-1) sigma
  = lifted_gaussian x (d / 2 + w / 2) (d + 1) sigma.
Proof.
  rewrite <- lifted_gaussian_mirror. f_equal. ring.
Qed.

(** For a non-zero width [sigma] and [t_zero] away from the centre,
    [lifted_gaussian] is 1 at the centre, 0 at [t_zero], and between 0 and 1
    at every point no further from the centre than [t_zero] is. *)
Theorem lifted_gaussian_profile (x center t_zero sigma : R) :
  sigma <> 0 -> t_zero <> center ->
  (x - center) ^ 2 <= (t_zero - center) ^ 2 ->
  lifted_gaussian center center t_zero sigma = 1 /\
  lifted_gaussian t_zero center t_zero sigma = 0 /\
  0 <= lifted_gaussian x center t_zero sigma <= 1.
Proof.
  intros Hs Hz Hin.
  split; [now apply lifted_gaussian_center|].
  split; [apply lifted_gaussian_zero | now apply lifted_gaussian_range].
Qed.

Lemma lifted_gaussian_profile_witness :
  lifted_gaussian 0 0 (-1) 1 = 1 /\
  lifted_gaussian (-1) 0 (-1) 1 = 0 /\
  0 <= lifted_gaussian (1 / 2) 0 (-1) 1 <= 1.
Proof. apply lifted_gaussian_profile; lra. Defined.

(** ** The Gaussian square envelope *)

(** The value of the [sym.Piecewise] factor of [envelope_expr]. *)
Lemma envelope_expr_unfold (x d a s w th : R) :
  envelope_expr x d a s w th
  = Cmult (Cmult (RtoC a) (exp_I th))
          (RtoC (if Rle_dec x (d / 2 - w / 2)
                 then lifted_gaussian x (d / 2 - w / 2) (-1) s
                 else if Rle_dec (d / 2 + w / 2) x
                      then lifted_gaussian x (d / 2 + w / 2) (d + 1) s
                      else 1)).
Proof. reflexivity. Qed.

Lemma piecewise_factor_plateau (x d s w : R) :
  s > 0 -> w >= 0 -> d >= w -> d / 2 - w / 2 <= x <= d / 2 + w / 2 ->
  (if Rle_dec x (d / 2 - w / 2)
   then lifted_gaussian x (d / 2 - w / 2) (-1) s
   else if Rle_dec (d / 2 + w / 2) x
        then lifted_gaussian x (d / 2 + w / 2) (d + 1) s
        else 1) = 1.
Proof.
  intros Hs Hw Hd [Hlo Hhi].
  destruct (Rle_dec x (d / 2 - w / 2)) as [Hle | Hnle].
  - replace x with (d / 2 - w / 2) by lra.
    apply lifted_gaussian_center; lra.
  - destruct (Rle_dec (d / 2 + w / 2) x) as [Hge | Hnge]; [|reflexivity].
    replace x with (d / 2 + w / 2) by lra.
    apply lifted_gaussian_center; lra.
Qed.

Lemma piecewise_factor_range (x d s w : R) :
  s > 0 -> w >= 0 -> d >= w -> -1 <= x <= d + 1 ->
  0 <= (if Rle_dec x (d / 2 - w / 2)
        then lifted_gaussian x (d / 2 - w / 2) (-1) s
        else if Rle_dec (d / 2 + w / 2) x
             then lifted_gaussian x (d / 2 + w / 2) (d + 1) s
             else 1) <= 1.
Proof.
  intros Hs Hw Hd [Hlo Hhi].
  destruct (Rle_dec x (d / 2 - w / 2)) as [Hle | Hnle].
  - apply lifted_gaussian_range; [lra | lra |]. simpl. nra.
  - destruct (Rle_dec (d / 2 + w / 2) x) as [Hge | Hnge]; [|lra].
    apply lifted_gaussian_range; [lra | lra |]. simpl. nra.
Qed.

Lemma Cabs_phase_factor (a th p : R) :
  Cabs (Cmult (Cmult (RtoC a) (exp_I th)) (RtoC p)) = Rabs a * Rabs p.
Proof.
  unfold Cabs. cbv [Cmult RtoC exp_I re im fst snd].
  replace ((a * cos th - 0 * sin th) * p - (a * sin th + 0 * cos th) * 0)
    with (a * p * cos th) by ring.
  replace ((a * cos th - 0 * sin th) * 0 + (a * sin th + 0 * cos th) * p)
    with (a * p * sin th) by ring.
  replace (a * p * cos th * (a * p * cos th) + a * p * sin th * (a * p * sin th))
    with (Rsqr (a * p) * (Rsqr (sin th) + Rsqr (cos th)))
    by (unfold Rsqr; ring).
  rewrite sin2_cos2, Rmult_1_r, sqrt_Rsqr_abs. apply Rabs_mult.
Qed.

Lemma exp_I_0 : exp_I 0 = C1.
Proof. unfold exp_I. now rewrite cos_0, sin_0. Qed.

(** Under the pulse's constraints the envelope is [amp * exp(i angle)] on
    the whole plateau, its two ends included: the Gaussian edges join the
    plateau continuously. *)
Theorem envelope_plateau (_t _duration _amp _sigma _width _angle : R) :
  _sigma > 0 -> _width >= 0 -> _duration >= _width ->
  _duration / 2 - _width / 2 <= _t <= _duration / 2 + _width / 2 ->
  envelope_expr _t _duration _amp _sigma _width _angle
  = Cmult (RtoC _amp) (exp_I _angle).
Proof.
  intros Hs Hw Hd Ht. rewrite envelope_expr_unfold.
  rewrite (piecewise_factor_plateau _ _ _ _ Hs Hw Hd Ht).
  apply Cmult_RtoC_1.
Qed.

Lemma envelope_plateau_witness :
  envelope_expr 115 230 1 10 10 0 = Cmult (RtoC 1) (exp_I 0).
Proof. apply envelope_plateau; lra. Defined.

(** Under the pulse's constraints the envelope is 0 one sample before the
    pulse and one sample after it. *)
Theorem envelope_vanishes_outside
        (_duration _amp _sigma _width _angle : R) :
  _sigma > 0 -> _width >= 0 -> _duration >= _width ->
  envelope_expr (-1) _duration _amp _sigma _width _angle = C0 /\
  envelope_expr (_duration + 1) _duration _amp _sigma _width _angle = C0.
Proof.
  intros Hs Hw Hd. rewrite !envelope_expr_unfold. split.
  - destruct (Rle_dec (-1) (_duration / 2 - _width / 2)) as [_ | Hn];
      [|exfalso; lra].
    rewrite lifted_gaussian_zero. apply Cmult_RtoC_0.
  - destruct (Rle_dec (_duration + 1) (_duration / 2 - _width / 2))
      as [Hle | _]; [exfalso; lra|].
    destruct (Rle_dec (_duration / 2 + _width / 2) (_duration + 1))
      as [_ | Hn]; [|exfalso; lra].
    rewrite lifted_gaussian_zero. apply Cmult_RtoC_0.
Qed.

Lemma envelope_vanishes_outside_witness :
  envelope_expr (-1) 230 1 10 10 0 = C0 /\
  envelope_expr (230 + 1) 230 1 10 10 0 = C0.
Proof. apply envelope_vanishes_outside; lra. Defined.

(** For a non-negative width the envelope is symmetric about the middle of
    the pulse. *)
Theorem envelope_mirror (_t _duration _amp _sigma _width _angle : R) :
  _width >= 0 ->
  envelope_expr (_duration - _t) _duration _amp _sigma _width _angle
  = envelope_expr _t _duration _amp _sigma _width _angle.
Proof.
  intros Hw. rewrite !envelope_expr_unfold. f_equal. f_equal.
  destruct (Rle_dec (_duration - _t) (_duration / 2 - _width / 2)) as [H1|H1];
  destruct (Rle_dec _t (_duration / 2 - _width / 2)) as [H2|H2];
  destruct (Rle_dec (_duration / 2 + _width / 2) (_duration - _t)) as [H3|H3];
  destruct (Rle_dec (_duration / 2 + _width / 2) _t) as [H4|H4];
    try (exfalso; lra); try reflexivity;
    try apply lifted_gaussian_mirror; try apply lifted_gaussian_mirror_r.
  all: assert (Hw0 : _width = 0) by lra;
    assert (Ht : _t = _duration / 2) by lra; subst _width; subst _t.
  all: replace (_duration - _duration / 2) with (_duration / 2) by field;
    reflexivity.
Qed.

Lemma envelope_mirror_witness :
  envelope_expr (230 - 7) 230 1 10 10 0 = envelope_expr 7 230 1 10 10 0.
Proof. apply envelope_mirror; lra. Defined.

(** Under the pulse's constraints, from one sample before the pulse to one
    sample after it, the modulus of the envelope never exceeds [|amp|]. *)
Theorem envelope_modulus_bound
        (_t _duration _amp _sigma _width _angle : R) :
  _sigma > 0 -> _width >= 0 -> _duration >= _width ->
  -1 <= _t <= _duration + 1 ->
  Cabs (envelope_expr _t _duration _amp _sigma _width _angle) <= Rabs _amp.
Proof.
  intros Hs Hw Hd Ht. rewrite envelope_expr_unfold, Cabs_phase_factor.
  pose proof (piecewise_factor_range _t _duration _sigma _width Hs Hw Hd Ht)
    as [H0 H1].
  rewrite (Rabs_pos_eq _ H0).
  pose proof (Rabs_pos _amp). nra.
Qed.

Lemma envelope_modulus_bound_witness :
  Cabs (envelope_expr 7 230 1 10 10 0) <= Rabs 1.
Proof. apply envelope_modulus_bound; lra. Defined.

(** The pulse built by [gaussian_square_generated_by_pulse] from parameters
    meeting its constraints: over the 230 samples of its duration the
    envelope is a real number between 0 and 1. *)
Theorem generated_pulse_envelope (sigma width x : R) :
  valid_pulse (gaussian_square_generated_by_pulse (sigma, width)) ->
  0 <= x <= 230 ->
  exists e,
    envelope_at (gaussian_square_generated_by_pulse (sigma, width)) x
    = RtoC e /\
    0 <= e <= 1.
Proof.
  intros [(Hs & Hw & Hd) Hamp] Hx. simpl in Hs, Hw, Hd.
  unfold envelope_at. simpl. rewrite envelope_expr_unfold, exp_I_0.
  eexists. split.
  - apply C_eq; cbv [Cmult RtoC C1 re im fst snd]; ring_simplify; reflexivity.
  - apply piecewise_factor_range; lra.
Qed.

Lemma generated_pulse_envelope_witness :
  exists e,
    envelope_at (gaussian_square_generated_by_pulse (10, 10)) 7 = RtoC e /\
    0 <= e <= 1.
Proof.
  apply generated_pulse_envelope; [|lra].
  split; simpl; [lra | rewrite Rabs_R1; lra].
Defined.

(** ** The two-transmon model: matrix elements and Hermiticity *)

Lemma static_ham0_table (v0 anharm0 : R) :
  static_ham0 v0 anharm0
  = Np.diag (map (fun i => RtoC (level_energy v0 anharm0 (i mod dim)))
                 (seq 0 9)) 0.
Proof. array_eq. Qed.

Lemma static_ham1_table (v1 anharm1 : R) :
  static_ham1 v1 anharm1
  = Np.diag (map (fun i => RtoC (level_energy v1 anharm1 (i / dim)))
                 (seq 0 9)) 0.
Proof. array_eq. Qed.

Lemma coupling_table :
  Np.matmul (Np.add a0 a0dag) (Np.add a1 a1dag)
  = map (fun i =>
         map (fun j =>
                RtoC (ladder (i mod dim) (j mod dim)
                      * ladder (i / dim) (j / dim)))
             (seq 0 9))
      (seq 0 9).
Proof. array_eq. Qed.

Lemma static_ham_full_closed_form (v0 anharm0 v1 anharm1 J : R) :
  static_ham_full v0 anharm0 v1 anharm1 J
  = hamiltonian_table v0 anharm0 v1 anharm1 J.
Proof.
  unfold static_ham_full.
  rewrite static_ham0_table, static_ham1_table, coupling_table.
  array_eq.
Qed.

Lemma hamiltonian_table_hermitian (v0 anharm0 v1 anharm1 J : R) :
  dagger (hamiltonian_table v0 anharm0 v1 anharm1 J)
  = hamiltonian_table v0 anharm0 v1 anharm1 J.
Proof. array_eq. Qed.

Lemma drive_op0_table (r0 : R) :
  drive_op0 r0
  = map (fun i =>
         map (fun j =>
                RtoC (drive_element0 r0 (i / dim) (i mod dim)
                                     (j / dim) (j mod dim)))
             (seq 0 9))
      (seq 0 9).
Proof. array_eq. Qed.

Lemma drive_op1_table (r1 : R) :
  drive_op1 r1
  = map (fun i =>
         map (fun j =>
                RtoC (drive_element1 r1 (i / dim) (i mod dim)
                                     (j / dim) (j mod dim)))
             (seq 0 9))
      (seq 0 9).
Proof. array_eq. Qed.

(** The matrix elements of the drift Hamiltonian between the basis states
    [(n1, n0)] and [(m1, m0)], at row [3 * n1 + n0] and column
    [3 * m1 + m0]: the two level energies on the diagonal, plus the coupling
    [2 pi J] times the ladder elements of both qubits. *)
Theorem static_ham_full_matrix_elements
        (v0 anharm0 v1 anharm1 J : R) (n1 n0 m1 m0 : nat) :
  (n0 < 3)%nat -> (n1 < 3)%nat -> (m0 < 3)%nat -> (m1 < 3)%nat ->
  entry (static_ham_full v0 anharm0 v1 anharm1 J)
        (3 * n1 + n0) (3 * m1 + m0)
  = RtoC (matrix_element v0 anharm0 v1 anharm1 J n1 n0 m1 m0).
Proof.
  intros Hn0 Hn1 Hm0 Hm1.
  rewrite static_ham_full_closed_form. unfold hamiltonian_table.
  rewrite (entry_table
             (fun i j => RtoC (matrix_element v0 anharm0 v1 anharm1 J
                                 (i / dim) (i mod dim) (j / dim) (j mod dim))))
    by (unfold dim; simpl; lia).
  unfold dim.
  destruct (index_div_mod n1 n0 Hn0) as [-> ->].
  destruct (index_div_mod m1 m0 Hm0) as [-> ->].
  reflexivity.
Qed.

Lemma static_ham_full_matrix_elements_witness :
  entry (static_ham_full 1 2 3 4 5) (3 * 1 + 2) (3 * 1 + 2)
  = RtoC (matrix_element 1 2 3 4 5 1 2 1 2).
Proof. apply static_ham_full_matrix_elements; lia. Defined.

(** The drive operator of qubit 0 acts on the level of qubit 0 only, that
    of qubit 1 on the level of qubit 1 only, each with the ladder elements
    of [a + adag] scaled by [2 pi r]. *)
Theorem drive_op_matrix_elements (r0 r1 : R) (n1 n0 m1 m0 : nat) :
  (n0 < 3)%nat -> (n1 < 3)%nat -> (m0 < 3)%nat -> (m1 < 3)%nat ->
  entry (drive_op0 r0) (3 * n1 + n0) (3 * m1 + m0)
  = RtoC (if Nat.eqb n1 m1 then 2 * PI * r0 * ladder n0 m0 else 0) /\
  entry (drive_op1 r1) (3 * n1 + n0) (3 * m1 + m0)
  = RtoC (if Nat.eqb n0 m0 then 2 * PI * r1 * ladder n1 m1 else 0).
Proof.
  intros Hn0 Hn1 Hm0 Hm1.
  rewrite drive_op0_table, drive_op1_table.
  rewrite (entry_table
             (fun i j => RtoC (drive_element0 r0 (i / dim) (i mod dim)
                                              (j / dim) (j mod dim))))
    by lia.
  rewrite (entry_table
             (fun i j => RtoC (drive_element1 r1 (i / dim) (i mod dim)
                                              (j / dim) (j mod dim))))
    by lia.
  unfold dim.
  destruct (index_div_mod n1 n0 Hn0) as [-> ->].
  destruct (index_div_mod m1 m0 Hm0) as [-> ->].
  split; reflexivity.
Qed.

Lemma drive_op_matrix_elements_witness :
  entry (drive_op0 1) (3 * 1 + 2) (3 * 1 + 1)
  = RtoC (if Nat.eqb 1 1 then 2 * PI * 1 * ladder 2 1 else 0) /\
  entry (drive_op1 2) (3 * 1 + 2) (3 * 1 + 1)
  = RtoC (if Nat.eqb 2 1 then 2 * PI * 2 * ladder 1 1 else 0).
Proof. apply drive_op_matrix_elements; lia. Defined.

(** The drift Hamiltonian and both drive operators are Hermitian, for all
    real parameters. *)
Theorem model_operators_hermitian (v0 anharm0 r0 v1 anharm1 r1 J : R) :
  dagger (static_ham_full v0 anharm0 v1 anharm1 J)
  = static_ham_full v0 anharm0 v1 anharm1 J /\
  dagger (drive_op0 r0) = drive_op0 r0 /\
  dagger (drive_op1 r1) = drive_op1 r1.
Proof.
  rewrite static_ham_full_closed_form, drive_op0_table, drive_op1_table.
  split; [apply hamiltonian_table_hermitian|].
  split; array_eq.
Qed.
